(** * Text similarity (plagiarism rate): normalisation, tokenisation, TF-IDF
      and cosine similarity of [main.py].

    Modelling choices.

    - A Python [str] is a sequence of Unicode code points: [list Z].
    - [float] scores are modelled as exact real numbers ([R]), so the
      arithmetic statements below are statements of exact arithmetic;
      [Double] repeats the computation of [calculate] on IEEE 754 doubles,
      for what depends on rounding.
    - Exceptions are values of [result]: [Raise e] is an uncaught exception.
    - [jieba.cut] is a parameter of the development.
    - [re], [str.strip], [str.lower], [TfidfVectorizer()] (all defaults) and
      [cosine_similarity] are modelled after their documented behaviour.
      The Unicode tables are modelled on ASCII and on the CJK block
      U+4E00..U+9FA5, which is the alphabet [preprocess] leaves; whitespace
      follows the complete list of [str.isspace]. *)

From Stdlib Require Import List ZArith Bool Lia Permutation.
From Stdlib Require Import Strings.String Strings.Ascii.
From Stdlib Require Import Reals Lra.
From Stdlib Require Floats.PrimFloat.
Import ListNotations.

Open Scope Z_scope.

(** ** Strings *)

Definition str := list Z.

(** An ASCII literal as a Python string. *)
Definition text_of (s : string) : str :=
  map (fun a => Z.of_N (N_of_ascii a)) (list_ascii_of_string s).

Definition str_eq_dec : forall a b : str, {a = b} + {a <> b} :=
  list_eq_dec Z.eq_dec.

Definition str_eqb (a b : str) : bool :=
  if str_eq_dec a b then true else false.

Definition in_range (lo hi c : Z) : bool := (lo <=? c) && (c <=? hi).

(** [str.isspace] on one code point; the class [\s] of [re] on [str]. *)
Definition is_space (c : Z) : bool :=
  in_range 9 13 c || in_range 28 32 c || (c =? 133) || (c =? 160)
  || (c =? 5760) || in_range 8192 8202 c || (c =? 8232) || (c =? 8233)
  || (c =? 8239) || (c =? 8287) || (c =? 12288).

Definition is_cjk (c : Z) : bool := in_range 19968 40869 c.
Definition is_upper (c : Z) : bool := in_range 65 90 c.
Definition is_lower (c : Z) : bool := in_range 97 122 c.
Definition is_digit (c : Z) : bool := in_range 48 57 c.

(** The class [[一-龥a-zA-Z0-9\s]]. *)
Definition is_kept (c : Z) : bool :=
  is_cjk c || is_lower c || is_upper c || is_digit c || is_space c.

(** The class [\w]: alphanumeric or underscore. *)
Definition is_word (c : Z) : bool :=
  is_cjk c || is_lower c || is_upper c || is_digit c || (c =? 95).

Definition SPACE : Z := 32.
Definition LT : Z := 60.
Definition GT : Z := 62.
Definition NEWLINE : Z := 10.

(** [str.lower]. *)
Definition lower_char (c : Z) : Z := if is_upper c then c + 32 else c.
Definition lower (s : str) : str := map lower_char s.

(** [str.strip()], as [rstrip] after [lstrip]. *)
Fixpoint lstrip (s : str) : str :=
  match s with
  | [] => []
  | c :: r => if is_space c then lstrip r else s
  end.

Fixpoint rstrip (s : str) : str :=
  match s with
  | [] => []
  | c :: r =>
      match rstrip r with
      | [] => if is_space c then [] else [c]
      | r' => c :: r'
      end
  end.

Definition strip (s : str) : str := rstrip (lstrip s).

(** Truth value of a string: non-empty. *)
Definition truthy (s : str) : bool :=
  match s with [] => false | _ => true end.

(** [sep.join(words)]. *)
Fixpoint join (sep : str) (words : list str) : str :=
  match words with
  | [] => []
  | [w] => w
  | w :: ws => w ++ sep ++ join sep ws
  end.

(** ** TextProcessor *)

Module TextProcessor.

(** [_load_stopwords]: the built-in list, with its repetitions; membership is
    tested as in the [set] built from it. *)
Definition stopwords_list : list str :=
  [ [30340]; [20102]; [22312]; [26159]; [25105]; [26377]; [21644]; [23601]; [19981]; [20154]; [37117]; [19968];
    [19968; 20010]; [19978]; [20063]; [24456]; [21040]; [35828]; [35201]; [21435]; [20320]; [20250]; [30528]; [27809; 26377];
    [30475]; [22909]; [33258; 24049]; [36825]; [20010]; [20197]; [20182]; [36824]; [32780]; [21518]; [20043]; [26469];
    [21450]; [20110]; [20854]; [19982]; [25152]; [23545]; [20063]; [20294]; [24182]; [25110]; [19988]; [30528]; [20102];
    [36807]; [21602]; [21527]; [21543]; [21834]; [21568]; [21862]; [20043]; [20046]; [32773]; [20063]; [30691]; [28937]; [21705] ].

Definition in_stopwords (w : str) : bool := existsb (str_eqb w) stopwords_list.

(** [re.sub(r'<.*?>', '', text)].  [tag_end s] is what follows the first
    ['>'] of [s] when no newline comes before it: the text after a tag whose
    ['<'] has just been read ([.] does not match a newline, [*?] is lazy). *)
Fixpoint tag_end (s : str) : option str :=
  match s with
  | [] => None
  | c :: r =>
      if c =? GT then Some r
      else if c =? NEWLINE then None
      else tag_end r
  end.

Fixpoint sub_tags_fuel (fuel : nat) (s : str) : str :=
  match fuel with
  | O => s
  | S fuel' =>
      match s with
      | [] => []
      | c :: r =>
          if c =? LT then
            match tag_end r with
            | Some rest => sub_tags_fuel fuel' rest
            | None => c :: sub_tags_fuel fuel' r
            end
          else c :: sub_tags_fuel fuel' r
      end
  end.

Definition sub_tags (s : str) : str := sub_tags_fuel (List.length s) s.

(** [re.sub(r'[^一-龥a-zA-Z0-9\s]', '', text)]. *)
Definition sub_special (s : str) : str := filter is_kept s.

(** [re.sub(r'\s+', ' ', text)]; [in_run] tells that the previous character
    was whitespace, already replaced. *)
Fixpoint sub_spaces (in_run : bool) (s : str) : str :=
  match s with
  | [] => []
  | c :: r =>
      if is_space c then
        if in_run then sub_spaces true r else SPACE :: sub_spaces true r
      else c :: sub_spaces false r
  end.

Definition preprocess (text : str) : str :=
  let text := sub_tags text in
  let text := sub_special text in
  let text := strip (sub_spaces false text) in
  text.

Section Segment.

(** [jieba.cut], the words of a text in order. *)
Variable cut : str -> list str.

Definition filtered_words (text : str) : list str :=
  filter (fun word => negb (in_stopwords word) && truthy (strip word))
         (cut text).

Definition segment (text : str) : str := join [SPACE] (filtered_words text).

End Segment.

End TextProcessor.

(** ** Exceptions *)

Inductive exn : Type :=
| ValueError (msg : string)
| IndexError
| TypeError
| LookupError
| UnicodeDecodeError
| OSError.

Inductive result (A : Type) : Type :=
| Ok (a : A)
| Raise (e : exn).

Arguments Ok {A} a.
Arguments Raise {A} e.

Definition bind {A B : Type} (c : result A) (k : A -> result B) : result B :=
  match c with
  | Ok a => k a
  | Raise e => Raise e
  end.

Notation "x <- c ;; k" := (bind c (fun x => k))
  (at level 61, c at next level, right associativity).

(** [l[i]] *)
Definition getitem {A : Type} (l : list A) (i : nat) : result A :=
  match nth_error l i with
  | Some x => Ok x
  | None => Raise IndexError
  end.

(** [l[a:b]] *)
Definition slice {A : Type} (a b : nat) (l : list A) : list A :=
  firstn (b - a) (skipn a l).

(** ** The vector-space library: [TfidfVectorizer()] and [cosine_similarity] *)

Definition matrix := list (list R).

Definition rsum (l : list R) : R := fold_right Rplus 0%R l.

Definition sumsq (row : list R) : R := rsum (map (fun x => (x * x)%R) row).

Definition dot (x y : list R) : R :=
  rsum (map (fun p => (fst p * snd p)%R) (combine x y)).

(** [normalize(X)], norm ['l2']: a row whose sum of squares is zero is left
    as it is, any other is divided by its Euclidean norm. *)
Definition normalize_row (row : list R) : list R :=
  let s := sumsq row in
  if Req_EM_T s 0 then row else map (fun x => (x / sqrt s)%R) row.

Definition normalize (X : matrix) : matrix := map normalize_row X.

(** [cosine_similarity(X, Y)]: the product of [normalize(X)] and the
    transpose of [normalize(Y)]. *)
Definition cosine_similarity (X Y : matrix) : matrix :=
  let X_normalized := normalize X in
  let Y_normalized := normalize Y in
  map (fun x => map (fun y => dot x y) Y_normalized) X_normalized.

Module TfidfVectorizer.

(** [token_pattern = r"(?u)\b\w\w+\b"] with [findall]: the maximal runs of
    word characters that have two characters or more; [cur] is the run
    being read. *)
Definition emit (cur : str) (rest : list str) : list str :=
  if (2 <=? List.length cur)%nat then cur :: rest else rest.

Fixpoint findall (cur : str) (s : str) : list str :=
  match s with
  | [] => emit cur []
  | c :: r =>
      if is_word c then findall (cur ++ [c]) r
      else emit cur (findall [] r)
  end.

(** [build_analyzer()]: [lowercase=True], then the token pattern; no stop
    words, unigrams. *)
Definition analyze (doc : str) : list str := findall [] (lower doc).

(** Order of Python strings: lexicographic on code points. *)
Fixpoint str_leb (a b : str) : bool :=
  match a, b with
  | [], _ => true
  | _ :: _, [] => false
  | x :: a', y :: b' =>
      if x <? y then true else if y <? x then false else str_leb a' b'
  end.

Fixpoint insert_term (t : str) (l : list str) : list str :=
  match l with
  | [] => [t]
  | u :: r => if str_leb t u then t :: l else u :: insert_term t r
  end.

(** [_sort_features]: the terms in increasing order. *)
Definition sort_terms (l : list str) : list str := fold_right insert_term [] l.

(** Raw count of a term in an analysed document. *)
Definition tf (doc : list str) (term : str) : nat :=
  count_occ str_eq_dec doc term.

(** [_document_frequency]: the number of documents holding the term. *)
Definition df (docs : list (list str)) (term : str) : nat :=
  List.length (filter (fun doc => (0 <? tf doc term)%nat) docs).

(** [smooth_idf=True]: [idf = ln((1 + n) / (1 + df)) + 1]. *)
Definition idf (docs : list (list str)) (term : str) : R :=
  (ln (INR (1 + List.length docs) / INR (1 + df docs term)) + 1)%R.

Definition empty_vocabulary : exn :=
  ValueError "empty vocabulary; perhaps the documents only contain stop words".

(** [fit_transform(raw_documents)] with the default parameters: count the
    terms, fail on an empty vocabulary, sort the vocabulary, weigh the counts
    by [idf] and normalise each row ([norm='l2']).  [max_df=1.0] and
    [min_df=1] prune nothing. *)
Definition fit_transform (raw_documents : list str) : result matrix :=
  let docs := map analyze raw_documents in
  let vocabulary := nodup str_eq_dec (List.concat docs) in
  match vocabulary with
  | [] => Raise empty_vocabulary
  | _ :: _ =>
      let vocabulary := sort_terms vocabulary in
      let X :=
        map (fun doc =>
               map (fun term => (INR (tf doc term) * idf docs term)%R)
                   vocabulary)
            docs in
      Ok (normalize X)
  end.

End TfidfVectorizer.

(** ** SimilarityCalculator *)

Module SimilarityCalculator.

Section Calculate.

(** The vectorisation stage, [TfidfVectorizer().fit_transform]. *)
Variable fit_transform : list str -> result matrix.

Definition calculate_with (text1 text2 : str) : result R :=
  if negb (truthy (strip text1)) && negb (truthy (strip text2)) then
    Ok 1%R
  else if negb (truthy (strip text1)) || negb (truthy (strip text2)) then
    Ok 0%R
  else
    tfidf_matrix <- fit_transform [text1; text2] ;;
    let cosine_sim :=
      cosine_similarity (slice 0 1 tfidf_matrix) (slice 1 2 tfidf_matrix) in
    row <- getitem cosine_sim 0 ;;
    getitem row 0.

End Calculate.

Definition calculate : str -> str -> result R :=
  calculate_with TfidfVectorizer.fit_transform.

End SimilarityCalculator.

(** ** The same computation on IEEE 754 doubles *)

Module Double.

Import PrimFloat.
Local Open Scope float_scope.

Definition matrix := list (list float).



(** A count as a [float64]. *)
Fixpoint of_nat (n : nat) : float :=
  match n with
  | O => 0
  | S n' => of_nat n' + 1
  end.

(** [np.log] at the two arguments that a corpus of two documents gives it,
    3/3 and 3/2: zero, and the double nearest to ln 1.5. *)
Definition log (x : float) : float :=
  if x =? 1 then 0
  else if x =? 1.5 then 0x1.9f323ecbf984cp-2
  else nan.

(** The loops of [normalize] and of the sparse product start a sum at 0.0
    and add to it entry by entry; the entries that a sparse row does not
    store are zeros, which change no sum. *)
Definition sumsq (row : list float) : float :=
  fold_left (fun sum x => sum + x * x) row 0.

Definition dot (x y : list float) : float :=
  fold_left (fun sum p => sum + fst p * snd p) (combine x y) 0.

Definition normalize_row (row : list float) : list float :=
  let sum := sumsq row in
  if sum =? 0 then row
  else let norm := sqrt sum in map (fun x => x / norm) row.

Definition normalize (X : matrix) : matrix := map normalize_row X.

Definition cosine_similarity (X Y : matrix) : matrix :=
  let X_normalized := normalize X in
  let Y_normalized := normalize Y in
  map (fun x => map (fun y => dot x y) Y_normalized) X_normalized.

Definition idf (docs : list (list str)) (term : str) : float :=
  log (of_nat (1 + List.length docs)
       / of_nat (1 + TfidfVectorizer.df docs term)) + 1.

Definition fit_transform (raw_documents : list str) : result matrix :=
  let docs := map TfidfVectorizer.analyze raw_documents in
  let vocabulary := nodup str_eq_dec (List.concat docs) in
  match vocabulary with
  | [] => Raise TfidfVectorizer.empty_vocabulary
  | _ :: _ =>
      let vocabulary := TfidfVectorizer.sort_terms vocabulary in
      let X :=
        map (fun doc =>
               map (fun term =>
                      of_nat (TfidfVectorizer.tf doc term) * idf docs term)
                   vocabulary)
            docs in
      Ok (normalize X)
  end.

Definition calculate (text1 text2 : str) : result float :=
  if negb (truthy (strip text1)) && negb (truthy (strip text2)) then
    Ok 1
  else if negb (truthy (strip text1)) || negb (truthy (strip text2)) then
    Ok 0
  else
    tfidf_matrix <- fit_transform [text1; text2] ;;
    let cosine_sim :=
      cosine_similarity (slice 0 1 tfidf_matrix) (slice 1 2 tfidf_matrix) in
    row <- getitem cosine_sim 0 ;;
    getitem row 0.

End Double.

(** ** The scoring policy in the words of the specification *)

Module Spec.

(** Vocabulary: the distinct tokens occurring in either document. *)
Definition vocabulary (tokenA tokenB : list str) : list str :=
  nodup str_eq_dec (tokenA ++ tokenB).

(** Term frequency: raw count of a term within a document. *)
Definition tf (term : str) (doc : list str) : nat :=
  count_occ str_eq_dec doc term.

Definition contains (doc : list str) (term : str) : nat :=
  if in_dec str_eq_dec term doc then 1%nat else 0%nat.

(** Document frequency: number of documents, of the 2, containing the term. *)
Definition df (tokenA tokenB : list str) (term : str) : nat :=
  (contains tokenA term + contains tokenB term)%nat.

(** [idf(term) = log((1 + N) / (1 + df(term))) + 1] with [N = 2]. *)
Definition idf (tokenA tokenB : list str) (term : str) : R :=
  (ln ((1 + 2) / (1 + INR (df tokenA tokenB term))) + 1)%R.


Definition norm (v : list R) : R := sqrt (sumsq v).




End Spec.

(** Empty or whitespace-only. *)
Definition is_blank (s : str) : bool := forallb is_space s.

(** The scoring pipeline of [main], steps 4 and 5: both texts are
    preprocessed and segmented, and the results compared. *)
Definition score (cut : str -> list str) (textA textB : str) : result R :=
  SimilarityCalculator.calculate
    (TextProcessor.segment cut (TextProcessor.preprocess textA))
    (TextProcessor.segment cut (TextProcessor.preprocess textB)).

(** ** FileHandler *)

Module FileHandler.

Definition bytes := list Byte.byte.

(** The files of the machine: the content at each path, if there is one. *)
Definition files := str -> option bytes.

Definition encodings : list string := ["utf-8"; "gbk"; "gb2312"; "ansi"]%string.

Section Codecs.

(** [bytes.decode(encoding)] as [open(..., encoding=...).read()] does it;
    it raises [UnicodeDecodeError] on undecodable input and [LookupError]
    on a codec the platform does not know. *)
Variable decode : string -> bytes -> result str.

(** [str.encode('utf-8')]. *)
Variable encode_utf8 : str -> bytes.

(** Whether [open(path, 'w')] succeeds; a write that fails after the file
    was opened (and truncated) is left out. *)
Variable writable : files -> str -> bool.

(** The loop of [read_file]: only [UnicodeDecodeError] is caught; the final
    [raise UnicodeDecodeError(msg)] has one argument where the constructor
    takes five, which is a [TypeError]. *)
Fixpoint try_encodings (encs : list string) (data : bytes) : result str :=
  match encs with
  | [] => Raise TypeError
  | encoding :: rest =>
      match decode encoding data with
      | Ok text => Ok text
      | Raise UnicodeDecodeError => try_encodings rest data
      | Raise e => Raise e
      end
  end.

Definition read_file (fs : files) (file_path : str) : result str :=
  match fs file_path with
  | None => Raise OSError
  | Some data => try_encodings encodings data
  end.


End Codecs.

End FileHandler.

(** ** main *)

Section Main.

Variable decode : string -> FileHandler.bytes -> result str.
Variable encode_utf8 : str -> FileHandler.bytes.
Variable writable : FileHandler.files -> str -> bool.
Variable cut : str -> list str.

(** The builtins [round(x, ndigits)] and [str(x)] on floats. *)
Variable round : R -> Z -> R.
Variable float_str : R -> str.



End Main.

(** The first character, if any, is not whitespace. *)
Definition starts_clean (s : str) : Prop :=
  match s with
  | [] => True
  | c :: _ => is_space c = false
  end.

(** Every whitespace character is a single space that follows no
    whitespace; [after_space] tells that whitespace precedes the string. *)
Fixpoint single_spaced (after_space : bool) (s : str) : Prop :=
  match s with
  | [] => True
  | c :: r =>
      if is_space c then
        after_space = false /\ c = SPACE /\ single_spaced true r
      else single_spaced false r
  end.

(** The invariant of NormalizedText: only CJK ideographs, ASCII letters and
    digits and single spaces, none of them leading or trailing. *)
Definition normalized_text (s : str) : Prop :=
  Forall (fun c => is_kept c = true) s
  /\ single_spaced false s
  /\ strip s = s.

(** The row of TF-IDF weights of an analysed document, before normalisation. *)
Definition weights (docs : list (list str)) (vocabulary : list str)
           (doc : list str) : list R :=
  map (fun term =>
         (INR (TfidfVectorizer.tf doc term) * TfidfVectorizer.idf docs term)%R)
      vocabulary.

(** The cosine of two rows given by their entries at each term of a
    vocabulary. *)
Definition cosine_on {A : Type} (V : list A) (f g : A -> R) : R :=
  dot (normalize_row (map f V)) (normalize_row (map g V)).

(** [c'] is [c], or the same ASCII letter in the other case. *)
Definition case_variant (c c' : Z) : Prop :=
  c' = c
  \/ (is_upper c = true /\ c' = c + 32)
  \/ (is_lower c = true /\ c' = c - 32).

(** Two texts that differ in the case of ASCII letters only. *)
Definition same_up_to_case (s s' : str) : Prop := Forall2 case_variant s s'.

(** A token as the tokenizer hands it on from a NormalizedText: a non-empty
    run of word characters. *)
Definition word_token (w : str) : Prop :=
  w <> [] /\ Forall (fun c => is_word c = true) w.

(** The terms the vectoriser keeps of a token stream: the tokens in lower
    case that have two characters or more. *)
Definition vectorizer_terms (tokens : list str) : list str :=
  filter (fun w => (2 <=? List.length w)%nat) (map lower tokens).

(** An ideograph of the CJK block, an ASCII letter or an ASCII digit: what
    [preprocess] keeps besides whitespace. *)
Definition is_content (c : Z) : bool :=
  is_cjk c || is_lower c || is_upper c || is_digit c.

(** * Properties *)

(** ** Whitespace and trimming *)

Lemma lstrip_nil (s : str) : lstrip s = [] <-> is_blank s = true.
Proof.
  induction s as [|c r IH]; simpl; [tauto|].
  destruct (is_space c); simpl; [exact IH|].
  split; discriminate.
Qed.

Lemma rstrip_nil (s : str) : rstrip s = [] <-> is_blank s = true.
Proof.
  induction s as [|c r IH]; simpl; [tauto|].
  destruct (rstrip r) as [|x r'] eqn:E.
  - destruct (is_space c); simpl.
    + tauto.
    + split; discriminate.
  - split; [discriminate|].
    intros H. apply andb_true_iff in H as [_ H].
    apply IH in H. discriminate.
Qed.

Lemma is_blank_lstrip (s : str) : is_blank (lstrip s) = is_blank s.
Proof.
  induction s as [|c r IH]; simpl; [reflexivity|].
  destruct (is_space c) eqn:E; simpl; [exact IH|].
  rewrite E. reflexivity.
Qed.

Lemma strip_nil (s : str) : strip s = [] <-> is_blank s = true.
Proof.
  unfold strip. rewrite rstrip_nil, is_blank_lstrip. tauto.
Qed.

Lemma truthy_strip (s : str) : truthy (strip s) = negb (is_blank s).
Proof.
  destruct (is_blank s) eqn:E.
  - apply strip_nil in E. rewrite E. reflexivity.
  - destruct (strip s) eqn:E'; [|reflexivity].
    apply strip_nil in E'. congruence.
Qed.

Lemma starts_clean_lstrip (s : str) : starts_clean (lstrip s).
Proof.
  induction s as [|c r IH]; simpl; [exact I|].
  destruct (is_space c) eqn:E; [exact IH|exact E].
Qed.

Lemma starts_clean_rstrip (s : str) : starts_clean s -> starts_clean (rstrip s).
Proof.
  destruct s as [|c r]; simpl; [tauto|].
  intros H. destruct (rstrip r); [rewrite H|]; exact H.
Qed.

Lemma lstrip_clean (s : str) : starts_clean s -> lstrip s = s.
Proof.
  destruct s as [|c r]; simpl; [reflexivity|].
  intros ->. reflexivity.
Qed.

Lemma rstrip_idem (s : str) : rstrip (rstrip s) = rstrip s.
Proof.
  induction s as [|c r IH]; simpl; [reflexivity|].
  destruct (rstrip r) as [|x r'] eqn:E.
  - destruct (is_space c) eqn:Ec; simpl; [reflexivity|].
    rewrite Ec. reflexivity.
  - simpl in *. rewrite IH. reflexivity.
Qed.

Lemma strip_idem (s : str) : strip (strip s) = strip s.
Proof.
  unfold strip.
  rewrite (lstrip_clean (rstrip (lstrip s))).
  - apply rstrip_idem.
  - apply starts_clean_rstrip, starts_clean_lstrip.
Qed.

Lemma Forall_lstrip (P : Z -> Prop) (s : str) : Forall P s -> Forall P (lstrip s).
Proof.
  induction 1 as [|c r Hc Hr IH]; simpl; [constructor|].
  destruct (is_space c); [exact IH|constructor; assumption].
Qed.

Lemma Forall_rstrip (P : Z -> Prop) (s : str) : Forall P s -> Forall P (rstrip s).
Proof.
  induction 1 as [|c r Hc Hr IH]; simpl; [constructor|].
  destruct (rstrip r) as [|x r'].
  - destruct (is_space c); constructor; [assumption|constructor].
  - constructor; assumption.
Qed.

(** ** Normalisation *)

Import TextProcessor.

Lemma sub_tags_fuel_no_lt (fuel : nat) (s : str) :
  Forall (fun c => c <> LT) s -> sub_tags_fuel fuel s = s.
Proof.
  revert s. induction fuel as [|n IH]; intros s H; simpl; [reflexivity|].
  destruct H as [|c r Hc Hr]; [reflexivity|].
  apply Z.eqb_neq in Hc. rewrite Hc, IH by assumption. reflexivity.
Qed.

(** The fuel of [sub_tags] never runs out: any larger amount gives the
    same text. *)
Lemma tag_end_length (s rest : str) :
  tag_end s = Some rest -> (List.length rest < List.length s)%nat.
Proof.
  revert rest. induction s as [|c r IH]; intros rest; simpl; [discriminate|].
  destruct (c =? GT).
  - intros [= <-]. lia.
  - destruct (c =? NEWLINE); [discriminate|].
    intros H. apply IH in H. lia.
Qed.

Lemma sub_tags_fuel_enough (fuel : nat) (s : str) :
  (List.length s <= fuel)%nat -> sub_tags_fuel fuel s = sub_tags s.
Proof.
  unfold sub_tags.
  remember (List.length s) as n eqn:En.
  revert s fuel En.
  induction n as [n IH] using lt_wf_ind; intros s fuel En Hf.
  destruct s as [|c r]; simpl in En; subst n.
  - destruct fuel; reflexivity.
  - destruct fuel as [|fuel]; [simpl in Hf; lia|].
    simpl in Hf. simpl.
    destruct (c =? LT).
    + destruct (tag_end r) as [rest|] eqn:E.
      * apply tag_end_length in E.
        rewrite (IH (List.length rest)) with (s := rest) (fuel := fuel)
          by (try reflexivity; lia).
        rewrite (IH (List.length rest)) with (s := rest) (fuel := List.length r)
          by (try reflexivity; lia).
        reflexivity.
      * rewrite (IH (List.length r)) with (s := r) (fuel := fuel)
          by (try reflexivity; lia).
        reflexivity.
    + rewrite (IH (List.length r)) with (s := r) (fuel := fuel)
        by (try reflexivity; lia).
      reflexivity.
Qed.

Lemma single_spaced_sub_spaces (b : bool) (s : str) :
  single_spaced b (sub_spaces b s).
Proof.
  revert b. induction s as [|c r IH]; intros b; simpl; [exact I|].
  destruct (is_space c) eqn:E.
  - destruct b; [apply IH|].
    simpl. split; [reflexivity|]. split; [reflexivity|apply IH].
  - simpl. rewrite E. apply IH.
Qed.

Lemma sub_spaces_single (b : bool) (s : str) :
  single_spaced b s -> sub_spaces b s = s.
Proof.
  revert b. induction s as [|c r IH]; intros b; simpl; [reflexivity|].
  destruct (is_space c).
  - intros (-> & -> & H). rewrite IH by assumption. reflexivity.
  - intros H. rewrite IH by assumption. reflexivity.
Qed.

Lemma single_spaced_lstrip (b : bool) (s : str) :
  single_spaced b s -> single_spaced false (lstrip s).
Proof.
  revert b. induction s as [|c r IH]; intros b; simpl; [tauto|].
  destruct (is_space c) eqn:E.
  - intros (_ & _ & H). apply (IH true H).
  - simpl. rewrite E. tauto.
Qed.

Lemma single_spaced_rstrip (b : bool) (s : str) :
  single_spaced b s -> single_spaced b (rstrip s).
Proof.
  revert b. induction s as [|c r IH]; intros b; simpl; [tauto|].
  destruct (rstrip r) as [|x r'] eqn:Er.
  - destruct (is_space c) eqn:E; simpl; [tauto|].
    rewrite E. tauto.
  - destruct (is_space c) eqn:E; intros H.
    + destruct H as (Hb & Hc & H). apply IH in H.
      change (single_spaced b (c :: x :: r')). simpl single_spaced at 1.
      rewrite E. auto.
    + apply IH in H.
      change (single_spaced b (c :: x :: r')). simpl single_spaced at 1.
      rewrite E. exact H.
Qed.

Lemma Forall_kept_sub_spaces (b : bool) (s : str) :
  Forall (fun c => is_kept c = true) s ->
  Forall (fun c => is_kept c = true) (sub_spaces b s).
Proof.
  intros H. revert b. induction H as [|c r Hc Hr IH]; intros b; simpl.
  - constructor.
  - destruct (is_space c).
    + destruct b; [apply IH|]. constructor; [reflexivity|apply IH].
    + constructor; [assumption|apply IH].
Qed.

Lemma Forall_kept_sub_special (s : str) :
  Forall (fun c => is_kept c = true) (sub_special s).
Proof.
  apply Forall_forall. intros c H. apply filter_In in H. tauto.
Qed.

Lemma sub_special_kept (s : str) :
  Forall (fun c => is_kept c = true) s -> sub_special s = s.
Proof.
  induction 1 as [|c r Hc Hr IH]; simpl; [reflexivity|].
  rewrite Hc, IH. reflexivity.
Qed.

Lemma kept_not_lt (c : Z) : is_kept c = true -> c <> LT.
Proof. intros H ->. discriminate. Qed.

(** [preprocess] produces a NormalizedText. *)
Lemma preprocess_normalized (x : str) : normalized_text (preprocess x).
Proof.
  unfold preprocess, normalized_text, strip.
  split; [|split].
  - apply Forall_rstrip, Forall_lstrip, Forall_kept_sub_spaces,
      Forall_kept_sub_special.
  - apply single_spaced_rstrip, (single_spaced_lstrip false),
      single_spaced_sub_spaces.
  - apply (strip_idem (sub_spaces false (sub_special (sub_tags x)))).
Qed.

(** A NormalizedText is a fixed point of [preprocess]. *)
Lemma preprocess_fixed (y : str) : normalized_text y -> preprocess y = y.
Proof.
  intros (Hk & Hs & Ht). unfold preprocess, sub_tags.
  rewrite sub_tags_fuel_no_lt.
  - rewrite sub_special_kept, sub_spaces_single; assumption.
  - eapply Forall_impl; [|exact Hk]. apply kept_not_lt.
Qed.

(** C7: normalisation is idempotent: [preprocess (preprocess x) = preprocess x]
    for every string [x]. *)
Theorem preprocess_idempotent (x : str) :
  preprocess (preprocess x) = preprocess x.
Proof. apply preprocess_fixed, preprocess_normalized. Qed.

(** ** Tokenisation *)

Lemma str_eqb_eq (a b : str) : str_eqb a b = true <-> a = b.
Proof.
  unfold str_eqb. destruct (str_eq_dec a b); split; congruence.
Qed.

Lemma in_stopwords_In (w : str) :
  in_stopwords w = true <-> In w stopwords_list.
Proof.
  unfold in_stopwords. rewrite existsb_exists. split.
  - intros (x & Hx & E). apply str_eqb_eq in E. subst. exact Hx.
  - intros H. exists w. split; [exact H|]. apply str_eqb_eq. reflexivity.
Qed.

(** C8: every token that [segment] keeps is non-empty after trimming, is not
    whitespace-only and is not a stopword; when the segmentation of a text
    holds stopwords only, the token stream is empty (and so is the string
    [segment] returns). *)
Theorem segment_tokens (cut : str -> list str) (text : str) :
  Forall (fun word =>
            strip word <> [] /\ is_blank word = false
            /\ ~ In word stopwords_list)
         (filtered_words cut text)
  /\ (Forall (fun word => In word stopwords_list) (cut text) ->
      filtered_words cut text = [] /\ segment cut text = []).
Proof.
  unfold segment, filtered_words. split.
  - apply Forall_forall. intros w H.
    apply filter_In in H as [_ H].
    apply andb_true_iff in H as [Hs Ht].
    rewrite truthy_strip in Ht.
    apply negb_true_iff in Hs, Ht.
    split; [|split].
    + rewrite strip_nil. congruence.
    + exact Ht.
    + rewrite <- in_stopwords_In. congruence.
  - intros H.
    assert (E : filter (fun word => negb (in_stopwords word) && truthy (strip word))
                       (cut text) = []).
    { induction H as [|w r Hw Hr IH]; simpl; [reflexivity|].
      apply in_stopwords_In in Hw. rewrite Hw. simpl. exact IH. }
    rewrite E. split; reflexivity.
Qed.

Lemma segment_tokens_witness :
  filtered_words (fun _ => [[30340]; [19968; 20010]]) [30340; 19968; 20010] = []
  /\ segment (fun _ => [[30340]; [19968; 20010]]) [30340; 19968; 20010] = [].
Proof.
  apply (proj2 (segment_tokens (fun _ => [[30340]; [19968; 20010]])
                               [30340; 19968; 20010])).
  repeat constructor; simpl; tauto.
Defined.

(** ** Degenerate inputs *)

Import SimilarityCalculator.

(** The guards of [calculate], written with [is_blank]. *)
Lemma calculate_with_cases (fit_transform : list str -> result matrix)
      (text1 text2 : str) :
  calculate_with fit_transform text1 text2 =
  if is_blank text1 && is_blank text2 then Ok 1%R
  else if is_blank text1 || is_blank text2 then Ok 0%R
  else
    tfidf_matrix <- fit_transform [text1; text2] ;;
    row <- getitem (cosine_similarity (slice 0 1 tfidf_matrix)
                                      (slice 1 2 tfidf_matrix)) 0 ;;
    getitem row 0.
Proof.
  unfold calculate_with. rewrite !truthy_strip, !negb_involutive. reflexivity.
Qed.

(** C2: when both texts are empty or whitespace-only the result is exactly
    [1.0]; when exactly one of them is, it is exactly [0.0].  This holds
    whatever the vectorisation stage is, also one that always fails: the
    stage is not invoked in these two cases. *)
Theorem calculate_blank (fit_transform : list str -> result matrix)
        (text1 text2 : str) :
  (is_blank text1 = true -> is_blank text2 = true ->
   calculate_with fit_transform text1 text2 = Ok 1%R)
  /\ (is_blank text1 <> is_blank text2 ->
      calculate_with fit_transform text1 text2 = Ok 0%R).
Proof.
  rewrite calculate_with_cases.
  split.
  - intros -> ->. reflexivity.
  - destruct (is_blank text1), (is_blank text2); simpl; congruence.
Qed.

Lemma calculate_blank_witness :
  calculate_with (fun _ => Raise OSError) (text_of "   ") (text_of "   ") = Ok 1%R
  /\ calculate_with (fun _ => Raise OSError) (text_of "") (text_of "ab") = Ok 0%R.
Proof.
  split.
  - apply (proj1 (calculate_blank (fun _ => Raise OSError)
                                  (text_of "   ") (text_of "   ")));
      reflexivity.
  - apply (proj2 (calculate_blank (fun _ => Raise OSError)
                                  (text_of "") (text_of "ab"))).
    simpl. discriminate.
Defined.

(** ** Rows of real numbers *)

Section Rows.

Local Open Scope R_scope.

Lemma sumsq_cons (a : R) (l : list R) : sumsq (a :: l) = a * a + sumsq l.
Proof. reflexivity. Qed.

Lemma sumsq_nonneg (l : list R) : 0 <= sumsq l.
Proof.
  induction l as [|a l IH]; [unfold sumsq; simpl; lra|].
  rewrite sumsq_cons. nra.
Qed.

Lemma sumsq_zero (l : list R) : sumsq l = 0 -> Forall (fun x => x = 0) l.
Proof.
  induction l as [|a l IH]; [constructor|].
  rewrite sumsq_cons. intros H.
  pose proof (sumsq_nonneg l) as Hl.
  constructor; [nra|]. apply IH. nra.
Qed.

Lemma sumsq_scale (k : R) (l : list R) :
  k <> 0 -> sumsq (map (fun x => x / k) l) = sumsq l / (k * k).
Proof.
  intros Hk. induction l as [|a l IH]; simpl map.
  - unfold sumsq; simpl. field. exact Hk.
  - rewrite !sumsq_cons, IH. field. exact Hk.
Qed.

Lemma sqrt_sumsq_pos (l : list R) : sumsq l <> 0 -> 0 < sqrt (sumsq l).
Proof.
  intros H. apply sqrt_lt_R0. pose proof (sumsq_nonneg l). lra.
Qed.

(** A normalised row is a unit vector, or the zero row it was. *)
Lemma sumsq_normalize_row (l : list R) :
  sumsq (normalize_row l) = (if Req_EM_T (sumsq l) 0 then 0 else 1).
Proof.
  unfold normalize_row. destruct (Req_EM_T (sumsq l) 0) as [E|N]; [exact E|].
  pose proof (sqrt_sumsq_pos l N) as Hp.
  rewrite sumsq_scale by lra.
  rewrite sqrt_sqrt by apply sumsq_nonneg.
  field. exact N.
Qed.


(** Normalising twice, as [fit_transform] followed by [cosine_similarity]
    does, is normalising once. *)
Lemma normalize_row_idem (l : list R) :
  normalize_row (normalize_row l) = normalize_row l.
Proof.
  unfold normalize_row at 1. rewrite sumsq_normalize_row.
  destruct (Req_EM_T (sumsq l) 0) as [E|N].
  - destruct (Req_EM_T 0 0); [reflexivity|lra].
  - destruct (Req_EM_T 1 0); [lra|].
    rewrite sqrt_1. rewrite <- (map_id (normalize_row l)) at 2.
    apply map_ext. intros x. field.
Qed.


Lemma dot_cons (a b : R) (x y : list R) :
  dot (a :: x) (b :: y) = a * b + dot x y.
Proof. reflexivity. Qed.





End Rows.

(** ** The shape of [calculate] *)

Import TfidfVectorizer.

(** On two texts that are not blank, [calculate] fails when no token of two
    word characters or more exists, and otherwise returns the dot product of
    the two normalised weight rows. *)
Lemma calculate_eq (text1 text2 : str) :
  is_blank text1 = false -> is_blank text2 = false ->
  let docs := [analyze text1; analyze text2] in
  let V := nodup str_eq_dec (analyze text1 ++ analyze text2) in
  calculate text1 text2 =
  match V with
  | [] => Raise empty_vocabulary
  | _ :: _ =>
      Ok (dot (normalize_row (weights docs (sort_terms V) (analyze text1)))
              (normalize_row (weights docs (sort_terms V) (analyze text2))))
  end.
Proof.
  intros H1 H2 docs V. unfold calculate.
  rewrite calculate_with_cases, H1, H2. simpl andb. simpl orb. cbv iota.
  unfold fit_transform. simpl map. simpl List.concat. rewrite app_nil_r.
  fold V. fold docs. destruct V as [|t V']; [reflexivity|].
  cbv beta iota zeta delta [bind normalize slice cosine_similarity getitem
                            nth_error firstn skipn map Nat.sub].
  rewrite !normalize_row_idem. reflexivity.
Qed.

(** ** Weights *)

Section Weights.

Local Open Scope R_scope.

Lemma ln_nonneg (x : R) : 1 <= x -> 0 <= ln x.
Proof.
  intros [H|<-].
  - rewrite <- ln_1. left. apply ln_increasing; lra.
  - rewrite ln_1. lra.
Qed.

Lemma df_le (docs : list (list str)) (term : str) :
  (df docs term <= List.length docs)%nat.
Proof. apply filter_length_le. Qed.

Lemma ratio_ge_1 (a b : R) : 0 < b -> b <= a -> 1 <= a / b.
Proof.
  intros Hb Hab. unfold Rdiv.
  rewrite <- (Rinv_r b) by lra.
  apply Rmult_le_compat_r; [|exact Hab].
  left. apply Rinv_0_lt_compat. exact Hb.
Qed.

(** The smoothed [idf] is at least 1: no term is suppressed. *)
Lemma idf_ge_1 (docs : list (list str)) (term : str) : 1 <= idf docs term.
Proof.
  unfold idf.
  change (1 + List.length docs)%nat with (S (List.length docs)).
  change (1 + df docs term)%nat with (S (df docs term)).
  rewrite !S_INR.
  pose proof (pos_INR (df docs term)) as Hd.
  pose proof (le_INR _ _ (df_le docs term)) as Hle.
  pose proof (ln_nonneg ((INR (List.length docs) + 1) / (INR (df docs term) + 1))) as H.
  assert (1 <= (INR (List.length docs) + 1) / (INR (df docs term) + 1))
    by (apply ratio_ge_1; lra).
  lra.
Qed.


End Weights.

(** ** Bounds *)





(** ** Symmetry *)

Section Symmetry.

Local Open Scope R_scope.

Lemma rsum_perm (l l' : list R) : Permutation l l' -> rsum l = rsum l'.
Proof.
  induction 1 as [|x l l' _ IH|x y l|l l' l'' _ IH1 _ IH2]; simpl.
  - reflexivity.
  - rewrite IH. reflexivity.
  - lra.
  - congruence.
Qed.

Lemma sumsq_perm (l l' : list R) : Permutation l l' -> sumsq l = sumsq l'.
Proof. intros H. apply rsum_perm, Permutation_map, H. Qed.

Context {A : Type}.

Lemma dot_map (f g : A -> R) (V : list A) :
  dot (map f V) (map g V) = rsum (map (fun t => f t * g t) V).
Proof.
  induction V as [|t V IH]; [reflexivity|].
  simpl map. rewrite dot_cons, IH. reflexivity.
Qed.

Lemma normalize_row_map (f : A -> R) (V : list A) :
  normalize_row (map f V) =
  map (fun t => if Req_EM_T (sumsq (map f V)) 0 then f t
                else f t / sqrt (sumsq (map f V))) V.
Proof.
  unfold normalize_row. destruct (Req_EM_T (sumsq (map f V)) 0).
  - reflexivity.
  - apply map_map.
Qed.

Lemma cosine_on_perm (V V' : list A) (f g : A -> R) :
  Permutation V V' -> cosine_on V f g = cosine_on V' f g.
Proof.
  intros H. unfold cosine_on. rewrite !normalize_row_map, !dot_map.
  rewrite (sumsq_perm (map f V) (map f V')) by (apply Permutation_map, H).
  rewrite (sumsq_perm (map g V) (map g V')) by (apply Permutation_map, H).
  apply rsum_perm, Permutation_map, H.
Qed.

Lemma cosine_on_ext (V : list A) (f f' g g' : A -> R) :
  (forall t, f t = f' t) -> (forall t, g t = g' t) ->
  cosine_on V f g = cosine_on V f' g'.
Proof.
  intros Hf Hg. unfold cosine_on.
  rewrite (map_ext f f' Hf), (map_ext g g' Hg). reflexivity.
Qed.


End Symmetry.

Lemma insert_term_perm (t : str) (l : list str) :
  Permutation (insert_term t l) (t :: l).
Proof.
  induction l as [|u r IH]; simpl; [reflexivity|].
  destruct (str_leb t u); [reflexivity|].
  rewrite IH. apply perm_swap.
Qed.

Lemma sort_terms_perm (l : list str) : Permutation (sort_terms l) l.
Proof.
  induction l as [|t r IH]; simpl; [reflexivity|].
  rewrite insert_term_perm, IH. reflexivity.
Qed.





(** ** Letter case *)

(** Decides every comparison of the goal that the hypotheses settle. *)
Ltac settle_comparisons :=
  repeat match goal with
    | |- context [(?a <=? ?b)%Z] =>
        first [ replace (a <=? b)%Z with true
                  by (symmetry; apply Z.leb_le; lia)
              | replace (a <=? b)%Z with false
                  by (symmetry; apply Z.leb_gt; lia) ]
    | |- context [(?a =? ?b)%Z] =>
        first [ replace (a =? b)%Z with false
                  by (symmetry; apply Z.eqb_neq; lia)
              | replace (a =? b)%Z with true
                  by (symmetry; apply Z.eqb_eq; lia) ]
    end.

Lemma in_range_spec (lo hi c : Z) : in_range lo hi c = true <-> lo <= c <= hi.
Proof. unfold in_range. rewrite andb_true_iff, !Z.leb_le. tauto. Qed.

Lemma is_space_letter (c : Z) : 65 <= c <= 122 -> is_space c = false.
Proof.
  intros H. unfold is_space, in_range. settle_comparisons. reflexivity.
Qed.

Lemma is_space_lower_char (c : Z) : is_space (lower_char c) = is_space c.
Proof.
  unfold lower_char. destruct (is_upper c) eqn:E; [|reflexivity].
  apply in_range_spec in E.
  rewrite !is_space_letter by lia. reflexivity.
Qed.

Lemma is_word_lower_char (c : Z) : is_word (lower_char c) = is_word c.
Proof.
  unfold lower_char. destruct (is_upper c) eqn:E; [|reflexivity].
  pose proof E as E'. apply in_range_spec in E'.
  unfold is_word. rewrite E.
  unfold is_cjk, is_lower, is_upper, is_digit, in_range.
  settle_comparisons. reflexivity.
Qed.

Lemma lower_char_idem (c : Z) : lower_char (lower_char c) = lower_char c.
Proof.
  unfold lower_char at 2. destruct (is_upper c) eqn:E; unfold lower_char.
  - apply in_range_spec in E.
    unfold is_upper, in_range. settle_comparisons. reflexivity.
  - rewrite E. reflexivity.
Qed.

Lemma lower_idem (s : str) : lower (lower s) = lower s.
Proof.
  unfold lower. rewrite map_map. apply map_ext, lower_char_idem.
Qed.

Lemma is_blank_lower (s : str) : is_blank (lower s) = is_blank s.
Proof.
  unfold is_blank, lower.
  induction s as [|c r IH]; simpl; [reflexivity|].
  rewrite is_space_lower_char, IH. reflexivity.
Qed.

Lemma lower_char_variant (c c' : Z) :
  case_variant c c' -> lower_char c' = lower_char c.
Proof.
  intros [->|[[E ->]|[E ->]]]; [reflexivity| |].
  - unfold lower_char. rewrite E. apply in_range_spec in E.
    unfold is_upper, in_range. settle_comparisons. reflexivity.
  - apply in_range_spec in E.
    unfold lower_char, is_upper, in_range. settle_comparisons. simpl. lia.
Qed.

Lemma lower_same (s s' : str) : same_up_to_case s s' -> lower s' = lower s.
Proof.
  induction 1 as [|c c' s s' Hc _ IH]; simpl; [reflexivity|].
  rewrite (lower_char_variant c c' Hc), IH. reflexivity.
Qed.

(** [calculate] sees a text through its lower-cased form only. *)
Lemma calculate_lower (text1 text2 : str) :
  calculate text1 text2 = calculate (lower text1) (lower text2).
Proof.
  unfold calculate. rewrite !calculate_with_cases, !is_blank_lower.
  unfold fit_transform, analyze. simpl map. rewrite !lower_idem. reflexivity.
Qed.

(** C10: the score does not depend on the case of ASCII letters: texts that
    differ from [text1] and [text2] in letter case only have the score (or
    the failure) of [text1] and [text2]; the vectoriser matches terms
    lower-cased although [preprocess] keeps both cases. *)
Theorem calculate_case_insensitive (text1 text1' text2 text2' : str) :
  same_up_to_case text1 text1' -> same_up_to_case text2 text2' ->
  calculate text1' text2' = calculate text1 text2.
Proof.
  intros H1 H2.
  rewrite (calculate_lower text1' text2'), (calculate_lower text1 text2).
  rewrite (lower_same _ _ H1), (lower_same _ _ H2). reflexivity.
Qed.

Lemma calculate_case_insensitive_witness :
  calculate (text_of "HELLO World") (text_of "hello wORLD 42")
  = calculate (text_of "Hello world") (text_of "Hello World 42").
Proof.
  apply (calculate_case_insensitive
           (text_of "Hello world") (text_of "HELLO World")
           (text_of "Hello World 42") (text_of "hello wORLD 42")).
  - unfold same_up_to_case. simpl.
    repeat (constructor;
            [first [ left; reflexivity
                   | right; left; split; reflexivity
                   | right; right; split; reflexivity ]|]).
    constructor.
  - unfold same_up_to_case. simpl.
    repeat (constructor;
            [first [ left; reflexivity
                   | right; left; split; reflexivity
                   | right; right; split; reflexivity ]|]).
    constructor.
Defined.

(** ** The empty vocabulary *)

(** [calculate] fails exactly on two texts that are not blank and hold no
    token of two word characters or more, with the vectoriser's
    [ValueError]. *)
Lemma calculate_raises_iff (text1 text2 : str) (e : exn) :
  calculate text1 text2 = Raise e <->
  is_blank text1 = false /\ is_blank text2 = false
  /\ analyze text1 = [] /\ analyze text2 = [] /\ e = empty_vocabulary.
Proof.
  destruct (is_blank text1) eqn:H1, (is_blank text2) eqn:H2.
  1-3: unfold calculate; rewrite calculate_with_cases, H1, H2; simpl;
    split; [discriminate|intros (? & ? & _); discriminate].
  rewrite (calculate_eq text1 text2 H1 H2). cbv zeta.
  destruct (nodup str_eq_dec (analyze text1 ++ analyze text2)) as [|t V] eqn:E.
  - assert (Ha : analyze text1 ++ analyze text2 = []).
    { destruct (analyze text1 ++ analyze text2) as [|x l] eqn:Ea; [reflexivity|].
      assert (Hin : In x (nodup str_eq_dec (x :: l)))
        by (apply nodup_In; left; reflexivity).
      rewrite E in Hin. destruct Hin. }
    apply app_eq_nil in Ha as [Ha1 Ha2].
    split.
    + intros [= <-]. auto.
    + intros (_ & _ & _ & _ & ->). reflexivity.
  - split; [discriminate|].
    intros (_ & _ & Ha1 & Ha2 & _). rewrite Ha1, Ha2 in E. discriminate.
Qed.

(** C3: two texts that are not blank on which [calculate] raises: the
    tokens ["a"] and ["b"] have one character each, the vectoriser keeps
    tokens of two word characters or more, and its vocabulary is empty. *)
Theorem calculate_raises_on_short_tokens :
  is_blank (text_of "a") = false /\ is_blank (text_of "b") = false
  /\ calculate (text_of "a") (text_of "b") = Raise empty_vocabulary.
Proof. repeat split; reflexivity. Qed.

(** C4: a document that is not empty and has no score against itself: with
    any segmenter that returns the word ["a"] as it is, scoring ["a"] against
    ["a"] raises the vectoriser's [ValueError]. *)
Theorem self_score_raises (cut : str -> list str) :
  cut (text_of "a") = [text_of "a"] ->
  is_blank (text_of "a") = false
  /\ score cut (text_of "a") (text_of "a") = Raise empty_vocabulary.
Proof.
  intros H. split; [reflexivity|].
  unfold score, segment, filtered_words.
  change (preprocess (text_of "a")) with (text_of "a").
  rewrite H. reflexivity.
Qed.

Lemma self_score_raises_witness :
  is_blank (text_of "a") = false
  /\ score (fun s => [s]) (text_of "a") (text_of "a") = Raise empty_vocabulary.
Proof. apply (self_score_raises (fun s => [s])). reflexivity. Defined.

(** ** The written result *)

Section Output.

Variable decode : string -> FileHandler.bytes -> result str.
Variable encode_utf8 : str -> FileHandler.bytes.
Variable writable : FileHandler.files -> str -> bool.
Variable cut : str -> list str.
Variable round : R -> Z -> R.
Variable float_str : R -> str.


End Output.



(** ** The vectoriser against the specified weighting *)

Section Refinement.

Local Open Scope R_scope.


Lemma tf_pos (doc : list str) (term : str) :
  In term doc -> 1 <= INR (tf doc term).
Proof.
  intros H. apply (count_occ_In str_eq_dec) in H.
  change 1 with (INR 1). apply le_INR. unfold tf. lia.
Qed.

Lemma weight_pos (docs : list (list str)) (doc : list str) (term : str) :
  In term doc -> INR (tf doc term) * idf docs term <> 0.
Proof.
  intros H. pose proof (tf_pos doc term H). pose proof (idf_ge_1 docs term).
  nra.
Qed.








End Refinement.

(** ** Token streams joined by spaces *)

Lemma is_word_not_space (c : Z) : is_word c = true -> is_space c = false.
Proof.
  unfold is_word, is_cjk, is_lower, is_upper, is_digit.
  rewrite !orb_true_iff, !in_range_spec, Z.eqb_eq.
  intros H. unfold is_space, in_range.
  destruct H as [[[[H|H]|H]|H]|H]; settle_comparisons; reflexivity.
Qed.

Lemma findall_app_word (cur w s : str) :
  Forall (fun c => is_word c = true) w ->
  findall cur (w ++ s) = findall (cur ++ w) s.
Proof.
  intros H. revert cur. induction H as [|c w Hc _ IH]; intros cur; simpl.
  - rewrite app_nil_r. reflexivity.
  - rewrite Hc, IH, <- app_assoc. reflexivity.
Qed.

Lemma findall_space (cur s : str) :
  findall cur (SPACE :: s) = emit cur (findall [] s).
Proof. reflexivity. Qed.

Lemma findall_join (tokens : list str) :
  Forall word_token tokens ->
  findall [] (join [SPACE] tokens)
  = filter (fun w => (2 <=? List.length w)%nat) tokens.
Proof.
  induction 1 as [|w ts [_ Hw] Hts IH]; [reflexivity|].
  destruct ts as [|w' ts].
  - simpl join. rewrite <- (app_nil_r w) at 1.
    rewrite findall_app_word by exact Hw. reflexivity.
  - change (join [SPACE] (w :: w' :: ts))
      with (w ++ SPACE :: join [SPACE] (w' :: ts)).
    rewrite findall_app_word by exact Hw.
    rewrite findall_space, IH. reflexivity.
Qed.

Lemma lower_join (tokens : list str) :
  lower (join [SPACE] tokens) = join [SPACE] (map lower tokens).
Proof.
  induction tokens as [|w ts IH]; [reflexivity|].
  destruct ts as [|w' ts]; [reflexivity|].
  change (join [SPACE] (w :: w' :: ts))
    with (w ++ SPACE :: join [SPACE] (w' :: ts)).
  change (join [SPACE] (map lower (w :: w' :: ts)))
    with (lower w ++ SPACE :: join [SPACE] (map lower (w' :: ts))).
  rewrite <- IH. unfold lower. rewrite map_app. reflexivity.
Qed.

Lemma word_token_lower (w : str) : word_token w -> word_token (lower w).
Proof.
  intros [Hn Hw]. split.
  - destruct w; [congruence|discriminate].
  - unfold lower. apply Forall_map. eapply Forall_impl; [|exact Hw].
    intros c Hc. simpl. rewrite is_word_lower_char. exact Hc.
Qed.

(** The vectoriser finds, in a stream joined by spaces, the tokens of two
    characters or more, in lower case. *)
Lemma analyze_join (tokens : list str) :
  Forall word_token tokens ->
  analyze (join [SPACE] tokens) = vectorizer_terms tokens.
Proof.
  intros H. unfold analyze, vectorizer_terms.
  rewrite lower_join. apply findall_join.
  apply Forall_map. eapply Forall_impl; [|exact H].
  intros w. apply word_token_lower.
Qed.









(** * Further properties of the text processor *)

(** ** What [preprocess] returns *)

Lemma is_kept_content (c : Z) : is_kept c = is_content c || is_space c.
Proof. reflexivity. Qed.

Lemma is_content_not_space (c : Z) : is_content c = true -> is_space c = false.
Proof.
  intros H. apply is_word_not_space. unfold is_word.
  unfold is_content in H. rewrite H. reflexivity.
Qed.

Lemma single_spaced_spaces (b : bool) (s : str) :
  single_spaced b s -> Forall (fun c => is_space c = true -> c = SPACE) s.
Proof.
  revert b. induction s as [|c r IH]; intros b; simpl; [constructor|].
  destruct (is_space c) eqn:E.
  - intros (_ & -> & H). constructor; [reflexivity|apply (IH true H)].
  - intros H. constructor; [congruence|apply (IH false H)].
Qed.

(** The output of [preprocess] holds only ideographs, ASCII letters and
    digits and the space U+0020, never two spaces in a row, and neither
    starts nor ends with a space; in particular no angle bracket is left. *)
Theorem preprocess_output (x : str) :
  Forall (fun c => is_content c = true \/ c = SPACE) (preprocess x)
  /\ single_spaced false (preprocess x)
  /\ strip (preprocess x) = preprocess x
  /\ ~ In LT (preprocess x) /\ ~ In GT (preprocess x).
Proof.
  destruct (preprocess_normalized x) as (Hk & Hs & Ht).
  assert (Hc : Forall (fun c => is_content c = true \/ c = SPACE) (preprocess x)).
  { pose proof (single_spaced_spaces false _ Hs) as Hsp.
    rewrite Forall_forall in *. intros c Hin.
    specialize (Hk c Hin). specialize (Hsp c Hin).
    rewrite is_kept_content in Hk. apply orb_true_iff in Hk as [Hk|Hk]; auto. }
  repeat split; try assumption.
  - intros Hin. rewrite Forall_forall in Hc.
    destruct (Hc _ Hin) as [H|H]; discriminate.
  - intros Hin. rewrite Forall_forall in Hc.
    destruct (Hc _ Hin) as [H|H]; discriminate.
Qed.

(** A text that already has that form comes back unchanged. *)
Theorem preprocess_identity_on_normalized (y : str) :
  Forall (fun c => is_content c = true \/ c = SPACE) y ->
  single_spaced false y -> strip y = y ->
  preprocess y = y.
Proof.
  intros Hc Hs Ht. apply preprocess_fixed. split; [|split; assumption].
  eapply Forall_impl; [|exact Hc].
  intros c [H| ->]; [|reflexivity].
  rewrite is_kept_content, H. reflexivity.
Qed.

Lemma preprocess_identity_on_normalized_witness :
  preprocess (text_of "hello world 42") = text_of "hello world 42".
Proof.
  apply (preprocess_identity_on_normalized (text_of "hello world 42")).
  - simpl.
    repeat (constructor;
            [first [left; reflexivity | right; reflexivity]|]).
    constructor.
  - simpl. tauto.
  - reflexivity.
Defined.

Lemma Forall_tag_end (P : Z -> Prop) (s rest : str) :
  tag_end s = Some rest -> Forall P s -> Forall P rest.
Proof.
  revert rest. induction s as [|c r IH]; intros rest; simpl; [discriminate|].
  intros E H. apply Forall_inv_tail in H.
  destruct (c =? GT); [injection E as <-; exact H|].
  destruct (c =? NEWLINE); [discriminate|]. apply IH; assumption.
Qed.

Lemma Forall_sub_tags_fuel (P : Z -> Prop) (fuel : nat) (s : str) :
  Forall P s -> Forall P (sub_tags_fuel fuel s).
Proof.
  revert s. induction fuel as [|n IH]; intros s H; simpl; [exact H|].
  destruct s as [|c r]; [constructor|].
  pose proof (Forall_inv H) as Hc. pose proof (Forall_inv_tail H) as Hr.
  destruct (c =? LT).
  - destruct (tag_end r) as [rest|] eqn:E.
    + apply IH. apply (Forall_tag_end P r rest E Hr).
    + constructor; [exact Hc|apply IH, Hr].
  - constructor; [exact Hc|apply IH, Hr].
Qed.

Lemma is_blank_sub_spaces (b : bool) (s : str) :
  is_blank s = true -> is_blank (sub_spaces b s) = true.
Proof.
  revert b. induction s as [|c r IH]; intros b; simpl; [reflexivity|].
  intros H. apply andb_true_iff in H as [Hc Hr]. rewrite Hc.
  destruct b; simpl; auto.
Qed.

Lemma preprocess_nil (x : str) :
  Forall (fun c => is_content c = false) x -> preprocess x = [].
Proof.
  intros H. unfold preprocess. apply strip_nil, is_blank_sub_spaces.
  unfold sub_special, sub_tags.
  pose proof (Forall_sub_tags_fuel _ (List.length x) x H) as H'.
  induction H' as [|c r Hc _ IH]; simpl; [reflexivity|].
  rewrite is_kept_content, Hc. simpl.
  destruct (is_space c) eqn:E; simpl; [rewrite E|]; exact IH.
Qed.

(** A text without any ideograph, ASCII letter or digit (punctuation,
    symbols, markup characters, whitespace, or nothing at all) is
    normalised to the empty string. *)
Theorem preprocess_no_content (x : str) :
  Forall (fun c => is_content c = false) x -> preprocess x = [].
Proof. apply preprocess_nil. Qed.

Lemma preprocess_no_content_witness :
  preprocess (text_of "<!-- ?! --> ... (*)") = [].
Proof.
  apply (preprocess_no_content (text_of "<!-- ?! --> ... (*)")).
  repeat constructor.
Defined.

Lemma filter_content_lstrip (s : str) :
  filter is_content (lstrip s) = filter is_content s.
Proof.
  induction s as [|c r IH]; simpl; [reflexivity|].
  destruct (is_space c) eqn:E; [|reflexivity].
  destruct (is_content c) eqn:Ec; [|exact IH].
  apply is_content_not_space in Ec. congruence.
Qed.

Lemma filter_content_rstrip (s : str) :
  filter is_content (rstrip s) = filter is_content s.
Proof.
  induction s as [|c r IH]; simpl; [reflexivity|].
  destruct (rstrip r) as [|x r'] eqn:Er.
  - simpl in IH. rewrite <- IH.
    destruct (is_space c) eqn:E; simpl.
    + destruct (is_content c) eqn:Ec; [|reflexivity].
      apply is_content_not_space in Ec. congruence.
    + reflexivity.
  - simpl in *. rewrite IH. reflexivity.
Qed.

Lemma filter_content_sub_spaces (b : bool) (s : str) :
  filter is_content (sub_spaces b s) = filter is_content s.
Proof.
  revert b. induction s as [|c r IH]; intros b; simpl; [reflexivity|].
  destruct (is_space c) eqn:E.
  - assert (Ec : is_content c = false).
    { destruct (is_content c) eqn:Ec; [|reflexivity].
      apply is_content_not_space in Ec. congruence. }
    rewrite Ec. destruct b; simpl; apply IH.
  - simpl. rewrite IH. reflexivity.
Qed.

Lemma filter_content_sub_special (s : str) :
  filter is_content (sub_special s) = filter is_content s.
Proof.
  unfold sub_special. induction s as [|c r IH]; simpl; [reflexivity|].
  rewrite is_kept_content.
  destruct (is_content c) eqn:Ec; simpl; [rewrite Ec, IH; reflexivity|].
  destruct (is_space c); simpl; [rewrite Ec|]; exact IH.
Qed.

(** Outside markup nothing of the content is lost or reordered: on a text
    without ['<'], the ideographs, letters and digits of the result are
    those of the input, in the same order and number. *)
Theorem preprocess_keeps_content (x : str) :
  Forall (fun c => c <> LT) x ->
  filter is_content (preprocess x) = filter is_content x.
Proof.
  intros H. unfold preprocess, sub_tags, strip.
  rewrite sub_tags_fuel_no_lt by exact H.
  rewrite filter_content_rstrip, filter_content_lstrip,
    filter_content_sub_spaces, filter_content_sub_special.
  reflexivity.
Qed.

Lemma preprocess_keeps_content_witness :
  filter is_content (preprocess (text_of "  Hello,   World! 42>  "))
  = filter is_content (text_of "  Hello,   World! 42>  ").
Proof.
  apply (preprocess_keeps_content (text_of "  Hello,   World! 42>  ")).
  repeat constructor; discriminate.
Defined.

Lemma length_lstrip (s : str) : (List.length (lstrip s) <= List.length s)%nat.
Proof.
  induction s as [|c r IH]; simpl; [lia|].
  destruct (is_space c); simpl; lia.
Qed.

Lemma length_rstrip (s : str) : (List.length (rstrip s) <= List.length s)%nat.
Proof.
  induction s as [|c r IH]; simpl; [lia|].
  destruct (rstrip r) as [|x r'].
  - destruct (is_space c); simpl; lia.
  - simpl in *. lia.
Qed.

Lemma length_sub_spaces (b : bool) (s : str) :
  (List.length (sub_spaces b s) <= List.length s)%nat.
Proof.
  revert b. induction s as [|c r IH]; intros b; simpl; [lia|].
  pose proof (IH true). pose proof (IH false).
  destruct (is_space c); [destruct b|]; simpl; lia.
Qed.

Lemma length_sub_tags_fuel (fuel : nat) (s : str) :
  (List.length (sub_tags_fuel fuel s) <= List.length s)%nat.
Proof.
  revert s. induction fuel as [|n IH]; intros s; simpl; [lia|].
  destruct s as [|c r]; [simpl; lia|].
  destruct (c =? LT).
  - destruct (tag_end r) as [rest|] eqn:E.
    + apply tag_end_length in E. specialize (IH rest). simpl. lia.
    + specialize (IH r). simpl. lia.
  - specialize (IH r). simpl. lia.
Qed.

(** [preprocess] only removes or replaces characters: its result is never
    longer than its input. *)
Theorem preprocess_length (x : str) :
  (List.length (preprocess x) <= List.length x)%nat.
Proof.
  unfold preprocess, strip, sub_special, sub_tags.
  pose proof (length_rstrip
                (lstrip (sub_spaces false
                   (filter is_kept (sub_tags_fuel (List.length x) x))))).
  pose proof (length_lstrip
                (sub_spaces false
                   (filter is_kept (sub_tags_fuel (List.length x) x)))).
  pose proof (length_sub_spaces false
                (filter is_kept (sub_tags_fuel (List.length x) x))).
  pose proof (filter_length_le is_kept (sub_tags_fuel (List.length x) x)).
  pose proof (length_sub_tags_fuel (List.length x) x).
  lia.
Qed.

(** ** Markup *)

Lemma sub_tags_cons (c : Z) (r : str) :
  sub_tags (c :: r) =
  if c =? LT then
    match tag_end r with
    | Some rest => sub_tags rest
    | None => c :: sub_tags r
    end
  else c :: sub_tags r.
Proof.
  unfold sub_tags at 1. simpl.
  destruct (c =? LT).
  - destruct (tag_end r) as [rest|] eqn:E.
    + apply sub_tags_fuel_enough. apply tag_end_length in E. lia.
    + f_equal.
  - reflexivity.
Qed.

Lemma tag_end_body (body post : str) :
  Forall (fun c => c <> GT /\ c <> NEWLINE) body ->
  tag_end (body ++ GT :: post) = Some post.
Proof.
  induction 1 as [|c r [Hg Hn] _ IH]; simpl; [reflexivity|].
  apply Z.eqb_neq in Hg, Hn. rewrite Hg, Hn. exact IH.
Qed.

Lemma tag_end_newline (body rest : str) :
  Forall (fun c => c <> GT /\ c <> NEWLINE) body ->
  tag_end (body ++ NEWLINE :: rest) = None.
Proof.
  induction 1 as [|c r [Hg Hn] _ IH]; simpl; [reflexivity|].
  apply Z.eqb_neq in Hg, Hn. rewrite Hg, Hn. exact IH.
Qed.

Lemma sub_tags_app_plain (pre s : str) :
  Forall (fun c => c <> LT) pre -> sub_tags (pre ++ s) = pre ++ sub_tags s.
Proof.
  induction 1 as [|c r Hc _ IH]; simpl; [reflexivity|].
  rewrite sub_tags_cons. apply Z.eqb_neq in Hc. rewrite Hc, IH. reflexivity.
Qed.

(** A tag on one line disappears with all it holds: when no ['<'] comes
    before it and its body has neither ['>'] nor a newline, the text is
    normalised as if the tag were not there. *)
Theorem preprocess_strips_tag (pre body post : str) :
  Forall (fun c => c <> LT) pre ->
  Forall (fun c => c <> GT /\ c <> NEWLINE) body ->
  preprocess (pre ++ LT :: body ++ GT :: post) = preprocess (pre ++ post).
Proof.
  intros Hp Hb. unfold preprocess.
  rewrite !sub_tags_app_plain by exact Hp.
  rewrite sub_tags_cons. simpl (LT =? LT).
  rewrite tag_end_body by exact Hb. reflexivity.
Qed.

Lemma preprocess_strips_tag_witness :
  preprocess (text_of "hello " ++ LT :: text_of "b class=x" ++ GT :: text_of "world")
  = preprocess (text_of "hello " ++ text_of "world").
Proof.
  apply (preprocess_strips_tag (text_of "hello ") (text_of "b class=x")
                               (text_of "world")).
  - repeat constructor; discriminate.
  - repeat constructor; discriminate.
Defined.

(** A tag never spans two lines: when a newline comes before the closing
    ['>'], the ['<'] opens no tag there, and the letters, digits and
    ideographs after it up to the newline are kept. *)
Theorem preprocess_tag_needs_one_line (body rest : str) :
  Forall (fun c => c <> GT /\ c <> NEWLINE /\ c <> LT) body ->
  filter is_content (preprocess (LT :: body ++ NEWLINE :: rest))
  = filter is_content body ++ filter is_content (preprocess rest).
Proof.
  intros Hb. unfold preprocess, strip.
  rewrite !filter_content_rstrip, !filter_content_lstrip,
    !filter_content_sub_spaces, !filter_content_sub_special.
  rewrite sub_tags_cons. simpl (LT =? LT).
  rewrite tag_end_newline
    by (eapply Forall_impl; [|exact Hb]; simpl; tauto).
  rewrite sub_tags_app_plain
    by (eapply Forall_impl; [|exact Hb]; simpl; tauto).
  rewrite sub_tags_cons. simpl (NEWLINE =? LT).
  simpl. rewrite filter_app. reflexivity.
Qed.

Lemma preprocess_tag_needs_one_line_witness :
  filter is_content
         (preprocess (LT :: text_of "a href" ++ NEWLINE :: text_of "=x>link"))
  = filter is_content (text_of "a href")
    ++ filter is_content (preprocess (text_of "=x>link")).
Proof.
  apply (preprocess_tag_needs_one_line (text_of "a href") (text_of "=x>link")).
  repeat constructor; discriminate.
Defined.

(** ** What [segment] returns *)

Lemma is_blank_app (a b : str) : is_blank (a ++ b) = is_blank a && is_blank b.
Proof. unfold is_blank. apply forallb_app. Qed.

Lemma is_blank_join_words (sep : str) (words : list str) :
  Forall (fun w => is_blank w = false) words -> words <> [] ->
  is_blank (join sep words) = false.
Proof.
  intros H N. destruct H as [|w ws Hw _]; [congruence|].
  destruct ws; simpl; [exact Hw|].
  rewrite is_blank_app, Hw. reflexivity.
Qed.

Lemma filtered_words_not_blank (cut : str -> list str) (text : str) :
  Forall (fun w => is_blank w = false) (filtered_words cut text).
Proof.
  unfold filtered_words. apply Forall_forall. intros w H.
  apply filter_In in H as [_ H]. apply andb_true_iff in H as [_ H].
  rewrite truthy_strip in H. apply negb_true_iff in H. exact H.
Qed.

Lemma is_blank_segment (cut : str -> list str) (text : str) :
  is_blank (segment cut text) = true <-> filtered_words cut text = [].
Proof.
  unfold segment. split.
  - intros H. destruct (filtered_words cut text) as [|w ws] eqn:E;
      [reflexivity|].
    rewrite <- E in H.
    rewrite is_blank_join_words in H; [discriminate| |rewrite E; discriminate].
    apply filtered_words_not_blank.
  - intros ->. reflexivity.
Qed.

(** The string [segment] returns is blank exactly when no word was kept:
    the guards of [calculate] see an empty document if and only if every
    word is a stopword or whitespace. *)
Theorem segment_blank_iff (cut : str -> list str) (text : str) :
  is_blank (segment cut text) = true <-> filtered_words cut text = [].
Proof. apply is_blank_segment. Qed.

Lemma stopwords_are_cjk :
  forallb (forallb is_cjk) stopwords_list = true.
Proof. reflexivity. Qed.

(** No stopword holds anything but an ideograph: a word with a character
    outside the CJK block (a Latin word, a number) is never removed as a
    stopword, and is kept whenever it is not blank. *)
Theorem segment_keeps_non_cjk (cut : str -> list str) (text word : str) :
  In word (cut text) ->
  (exists c, In c word /\ is_cjk c = false) ->
  is_blank word = false ->
  In word (filtered_words cut text).
Proof.
  intros Hin (c & Hc & Hn) Hb. unfold filtered_words.
  apply filter_In. split; [exact Hin|].
  rewrite truthy_strip, Hb, andb_true_r. apply negb_true_iff.
  destruct (in_stopwords word) eqn:E; [|reflexivity].
  apply in_stopwords_In in E.
  pose proof stopwords_are_cjk as H. rewrite forallb_forall in H.
  specialize (H word E). rewrite forallb_forall in H.
  specialize (H c Hc). congruence.
Qed.

Lemma segment_keeps_non_cjk_witness :
  In (text_of "the")
     (filtered_words (fun _ => [text_of "the"; [30340]]) (text_of "the") ).
Proof.
  apply (segment_keeps_non_cjk (fun _ => [text_of "the"; [30340]])
                               (text_of "the") (text_of "the")).
  - left. reflexivity.
  - exists 116. split; [left; reflexivity|reflexivity].
  - reflexivity.
Defined.

Lemma analyze_segment_eq (cut : str -> list str) (text : str) :
  Forall (fun w => word_token w \/ is_blank w = true) (cut text) ->
  analyze (segment cut text) = vectorizer_terms (filtered_words cut text).
Proof.
  intros H. unfold segment. apply analyze_join.
  unfold filtered_words. apply Forall_forall. intros w Hw.
  apply filter_In in Hw as [Hin Hk].
  apply andb_true_iff in Hk as [_ Hk].
  rewrite truthy_strip in Hk. apply negb_true_iff in Hk.
  rewrite Forall_forall in H. destruct (H w Hin) as [Hw|Hw];
    [exact Hw|congruence].
Qed.

(** Words that are runs of word characters survive the passage through the
    string of [segment]: from it the vectoriser reads back the kept words
    of two characters or more, lower-cased, in their order. *)
Theorem analyze_segment (cut : str -> list str) (text : str) :
  Forall (fun w => word_token w \/ is_blank w = true) (cut text) ->
  analyze (segment cut text) = vectorizer_terms (filtered_words cut text).
Proof. apply analyze_segment_eq. Qed.

Lemma analyze_segment_witness :
  let cut := fun _ : str =>
               [text_of "Big"; text_of " "; [30340]; text_of "x";
                text_of "data"] in
  analyze (segment cut (text_of "Big data"))
  = vectorizer_terms (filtered_words cut (text_of "Big data")).
Proof.
  cbv zeta.
  apply (analyze_segment
           (fun _ => [text_of "Big"; text_of " "; [30340]; text_of "x";
                      text_of "data"])
           (text_of "Big data")).
  repeat (apply Forall_cons;
          [first [ right; reflexivity
                 | left; split; [discriminate|repeat constructor] ]|]).
  apply Forall_nil.
Defined.

(** * Further properties of the similarity *)

Section Cosine.

Local Open Scope R_scope.

Lemma rsum_nonneg (l : list R) : Forall (fun x => 0 <= x) l -> 0 <= rsum l.
Proof. induction 1 as [|x l Hx _ IH]; simpl; lra. Qed.

Lemma rsum_zero_iff (l : list R) :
  Forall (fun x => 0 <= x) l -> (rsum l = 0 <-> Forall (fun x => x = 0) l).
Proof.
  induction 1 as [|x l Hx Hl IH]; simpl.
  - split; [constructor|reflexivity].
  - pose proof (rsum_nonneg l Hl). split.
    + intros H0. constructor; [lra|]. apply IH. lra.
    + intros H0. pose proof (Forall_inv H0). apply Forall_inv_tail in H0.
      apply IH in H0. simpl in *. lra.
Qed.

(** The entry of a normalised row at a term. *)
Lemma unit_entry_zero_iff (s x : R) :
  0 <= s -> ((if Req_EM_T s 0 then x else x / sqrt s) = 0 <-> x = 0).
Proof.
  intros Hs. destruct (Req_EM_T s 0) as [E|N]; [tauto|].
  assert (0 < sqrt s) by (apply sqrt_lt_R0; lra).
  split.
  - intros H0. apply (Rmult_eq_compat_r (sqrt s)) in H0.
    unfold Rdiv in H0. rewrite Rmult_assoc, Rinv_l, Rmult_1_r, Rmult_0_l in H0
      by lra. exact H0.
  - intros ->. unfold Rdiv. ring.
Qed.

Lemma unit_entry_nonneg (s x : R) :
  0 <= s -> 0 <= x -> 0 <= (if Req_EM_T s 0 then x else x / sqrt s).
Proof.
  intros Hs Hx. destruct (Req_EM_T s 0) as [E|N]; [exact Hx|].
  apply Rle_mult_inv_pos; [exact Hx|]. apply sqrt_lt_R0. lra.
Qed.

(** The cosine of two rows of non-negative entries over one vocabulary is
    zero exactly when no term has both entries non-zero. *)
Lemma cosine_on_zero_iff {A : Type} (V : list A) (f g : A -> R) :
  (forall t, 0 <= f t) -> (forall t, 0 <= g t) ->
  (cosine_on V f g = 0 <-> forall t, In t V -> f t = 0 \/ g t = 0).
Proof.
  intros Hf Hg. unfold cosine_on.
  rewrite !normalize_row_map, dot_map.
  pose proof (sumsq_nonneg (map f V)) as Sf.
  pose proof (sumsq_nonneg (map g V)) as Sg.
  rewrite rsum_zero_iff.
  - rewrite Forall_map, Forall_forall. split.
    + intros H t Hin. specialize (H t Hin). simpl in H.
      apply Rmult_integral in H as [H|H]; apply unit_entry_zero_iff in H; auto.
    + intros H t Hin. simpl. destruct (H t Hin) as [E|E].
      * rewrite (proj2 (unit_entry_zero_iff _ _ Sf) E). ring.
      * rewrite (proj2 (unit_entry_zero_iff _ _ Sg) E). ring.
  - apply Forall_map, Forall_forall. intros t _. simpl.
    apply Rmult_le_pos; apply unit_entry_nonneg; auto.
Qed.

Lemma weight_zero_iff (docs : list (list str)) (doc : list str) (term : str) :
  INR (tf doc term) * idf docs term = 0 <-> ~ In term doc.
Proof.
  split.
  - intros H Hin. revert H. apply weight_pos, Hin.
  - intros H. apply (count_occ_not_In str_eq_dec) in H.
    unfold tf. rewrite H. simpl. ring.
Qed.

Lemma weight_nonneg (docs : list (list str)) (doc : list str) (term : str) :
  0 <= INR (tf doc term) * idf docs term.
Proof.
  pose proof (pos_INR (tf doc term)). pose proof (idf_ge_1 docs term).
  apply Rmult_le_pos; lra.
Qed.

End Cosine.

(** Two texts that are not blank score exactly 0 if and only if they share
    no term (no token of two word characters or more, compared in lower
    case). *)
Theorem calculate_zero_iff (text1 text2 : str) (score : R) :
  is_blank text1 = false -> is_blank text2 = false ->
  calculate text1 text2 = Ok score ->
  (score = 0%R <->
   forall term, In term (analyze text1) -> ~ In term (analyze text2)).
Proof.
  intros H1 H2. rewrite (calculate_eq text1 text2 H1 H2). cbv zeta.
  destruct (nodup str_eq_dec (analyze text1 ++ analyze text2)) as [|t V] eqn:E;
    [discriminate|].
  intros [= <-].
  change (insert_term t (sort_terms V)) with (sort_terms (t :: V)).
  rewrite <- E.
  change (dot (normalize_row (weights ?d ?v ?a1)) (normalize_row (weights ?d ?v ?a2)))
    with (cosine_on v
            (fun term => (INR (tf a1 term) * idf d term)%R)
            (fun term => (INR (tf a2 term) * idf d term)%R)).
  rewrite cosine_on_zero_iff by (intros; apply weight_nonneg).
  split.
  - intros H term I1 I2.
    assert (Hin : In term (sort_terms (nodup str_eq_dec
                                         (analyze text1 ++ analyze text2)))).
    { apply (Permutation_in _ (Permutation_sym (sort_terms_perm _))).
      apply nodup_In, in_or_app. left. exact I1. }
    destruct (H term Hin) as [Z|Z]; apply weight_zero_iff in Z; contradiction.
  - intros H term _.
    destruct (in_dec str_eq_dec term (analyze text1)) as [I1|N1].
    + right. apply weight_zero_iff. apply H, I1.
    + left. apply weight_zero_iff. exact N1.
Qed.

Lemma calculate_zero_iff_witness :
  exists score : R,
    calculate (text_of "red apple") (text_of "green pear") = Ok score
    /\ (score = 0%R <->
        forall term, In term (analyze (text_of "red apple")) ->
                     ~ In term (analyze (text_of "green pear"))).
Proof.
  eexists. split.
  - reflexivity.
  - apply (calculate_zero_iff (text_of "red apple") (text_of "green pear"));
      reflexivity.
Defined.

(** ** Bags of terms *)

Section Scaling.

Local Open Scope R_scope.

Lemma sumsq_mult (c : R) (x : list R) :
  sumsq (map (Rmult c) x) = c * c * sumsq x.
Proof.
  induction x as [|a x IH]; simpl map.
  - unfold sumsq; simpl. ring.
  - rewrite !sumsq_cons, IH. ring.
Qed.

(** Normalisation forgets a positive factor. *)
Lemma normalize_row_scale (c : R) (x : list R) :
  0 < c -> normalize_row (map (Rmult c) x) = normalize_row x.
Proof.
  intros Hc. unfold normalize_row. rewrite sumsq_mult.
  pose proof (sumsq_nonneg x) as Hs.
  destruct (Req_EM_T (c * c * sumsq x) 0) as [E|N];
    destruct (Req_EM_T (sumsq x) 0) as [E'|N'].
  - apply sumsq_zero in E'. clear E Hs.
    induction E' as [|a x Ha _ IH]; simpl; [reflexivity|].
    rewrite IH, Ha. f_equal. ring.
  - exfalso. apply N'. apply Rmult_integral in E as [E|E]; [|exact E].
    apply Rmult_integral in E as [E|E]; lra.
  - exfalso. apply N. rewrite E'. ring.
  - rewrite map_map. apply map_ext. intros a.
    rewrite sqrt_mult by nra. rewrite sqrt_square by lra.
    assert (0 < sqrt (sumsq x)) by (apply sqrt_lt_R0; lra).
    field. split; lra.
Qed.

Lemma cosine_on_scale {A : Type} (V : list A) (f g : A -> R) (c d : R) :
  0 < c -> 0 < d ->
  cosine_on V (fun t => c * f t) (fun t => d * g t) = cosine_on V f g.
Proof.
  intros Hc Hd. unfold cosine_on.
  rewrite <- (map_map f (Rmult c)), <- (map_map g (Rmult d)).
  rewrite !normalize_row_scale by assumption. reflexivity.
Qed.

End Scaling.

Lemma tf_multiple_In (k : nat) (a a' : list str) :
  (1 <= k)%nat ->
  (forall term, tf a' term = (k * tf a term)%nat) ->
  forall term, In term a' <-> In term a.
Proof.
  intros Hk H term. rewrite !(count_occ_In str_eq_dec).
  specialize (H term). unfold tf in H. rewrite H. nia.
Qed.

Lemma tf_multiple_ltb (k : nat) (a a' : list str) (term : str) :
  (1 <= k)%nat -> tf a' term = (k * tf a term)%nat ->
  (0 <? tf a' term)%nat = (0 <? tf a term)%nat.
Proof.
  intros Hk ->. destruct (Nat.ltb_spec 0 (k * tf a term));
    destruct (Nat.ltb_spec 0 (tf a term)); try reflexivity; nia.
Qed.

(** [calculate] sees two texts that are not blank through their term
    counts only, and up to a common factor in each text. *)
Lemma calculate_same_profile (text1 text1' text2 text2' : str) (k1 k2 : nat) :
  (1 <= k1)%nat -> (1 <= k2)%nat ->
  is_blank text1' = is_blank text1 -> is_blank text2' = is_blank text2 ->
  (forall term, tf (analyze text1') term = (k1 * tf (analyze text1) term)%nat) ->
  (forall term, tf (analyze text2') term = (k2 * tf (analyze text2) term)%nat) ->
  calculate text1' text2' = calculate text1 text2.
Proof.
  intros K1 K2 B1 B2 T1 T2.
  destruct (is_blank text1) eqn:H1, (is_blank text2) eqn:H2.
  1-3: unfold calculate; rewrite !calculate_with_cases, B1, B2, H1, H2;
    reflexivity.
  rewrite (calculate_eq text1 text2 H1 H2), (calculate_eq text1' text2' B1 B2).
  cbv zeta.
  set (a1 := analyze text1) in *. set (a2 := analyze text2) in *.
  set (a1' := analyze text1') in *. set (a2' := analyze text2') in *.
  assert (HP : Permutation (nodup str_eq_dec (a1' ++ a2'))
                           (nodup str_eq_dec (a1 ++ a2))).
  { apply NoDup_Permutation; try apply NoDup_nodup.
    intros t. rewrite !nodup_In, !in_app_iff.
    rewrite (tf_multiple_In k1 a1 a1' K1 T1 t),
      (tf_multiple_In k2 a2 a2' K2 T2 t). tauto. }
  assert (Hidf : forall term, idf [a1'; a2'] term = idf [a1; a2] term).
  { intros term.
    assert (Hdf : df [a1'; a2'] term = df [a1; a2] term).
    { unfold df. simpl filter.
      rewrite (tf_multiple_ltb k1 a1 a1' term K1 (T1 term)),
        (tf_multiple_ltb k2 a2 a2' term K2 (T2 term)).
      destruct (0 <? tf a1 term)%nat, (0 <? tf a2 term)%nat; reflexivity. }
    unfold idf. rewrite Hdf. reflexivity. }
  destruct (nodup str_eq_dec (a1 ++ a2)) as [|t V] eqn:E.
  - symmetry in HP. apply Permutation_nil in HP. rewrite HP. reflexivity.
  - destruct (nodup str_eq_dec (a1' ++ a2')) as [|u W] eqn:E'.
    + apply Permutation_nil in HP. discriminate.
    + f_equal. unfold weights.
      change (cosine_on (sort_terms (u :: W))
                (fun term => (INR (tf a1' term) * idf [a1'; a2'] term)%R)
                (fun term => (INR (tf a2' term) * idf [a1'; a2'] term)%R)
              = cosine_on (sort_terms (t :: V))
                (fun term => (INR (tf a1 term) * idf [a1; a2] term)%R)
                (fun term => (INR (tf a2 term) * idf [a1; a2] term)%R)).
      rewrite (cosine_on_perm (sort_terms (u :: W)) (sort_terms (t :: V)))
        by (rewrite !sort_terms_perm; exact HP).
      symmetry.
      rewrite <- (cosine_on_scale (sort_terms (t :: V)) _ _ (INR k1) (INR k2))
        by (apply lt_0_INR; lia).
      apply cosine_on_ext; intros term.
      * rewrite T1, Hidf, mult_INR. ring.
      * rewrite T2, Hidf, mult_INR. ring.
Qed.



Lemma emit_app (cur : str) (l l' : list str) :
  emit cur l ++ l' = emit cur (l ++ l').
Proof. unfold emit. destruct (2 <=? List.length cur)%nat; reflexivity. Qed.

Lemma findall_app_space (cur s s' : str) :
  findall cur (s ++ SPACE :: s') = findall cur s ++ findall [] s'.
Proof.
  revert cur. induction s as [|c r IH]; intros cur; simpl.
  - rewrite emit_app. reflexivity.
  - destruct (is_word c); [apply IH|].
    rewrite IH, emit_app. reflexivity.
Qed.

(** Writing a text twice, with a space between, does not change its score
    against any other text: only the proportions of the terms count. *)
Theorem calculate_doubled (text1 text2 : str) :
  calculate (text1 ++ SPACE :: text1) text2 = calculate text1 text2.
Proof.
  apply (calculate_same_profile text1 (text1 ++ SPACE :: text1) text2 text2 2 1).
  - lia.
  - lia.
  - rewrite is_blank_app. simpl. destruct (is_blank text1); reflexivity.
  - reflexivity.
  - intros term. unfold analyze, lower. rewrite map_app. simpl map.
    change (lower_char SPACE) with SPACE.
    rewrite findall_app_space. unfold tf. rewrite count_occ_app. lia.
  - intros term. lia.
Qed.


(** * Further properties of the pipeline *)

(** Documents without content are empty documents: when the segmenter finds
    no word in the empty string, two texts without any ideograph, letter or
    digit score exactly 1.0, and such a text scores exactly 0.0 against a
    text of which a word is kept, in both orders. *)
Theorem score_without_content (cut : str -> list str) (textA textB : str) :
  cut [] = [] ->
  Forall (fun c => is_content c = false) textA ->
  (Forall (fun c => is_content c = false) textB ->
   score cut textA textB = Ok 1%R)
  /\ (filtered_words cut (preprocess textB) <> [] ->
      score cut textA textB = Ok 0%R /\ score cut textB textA = Ok 0%R).
Proof.
  intros Hcut HA. unfold score, calculate.
  rewrite (preprocess_nil textA HA).
  assert (EA : segment cut [] = []).
  { unfold segment, filtered_words. rewrite Hcut. reflexivity. }
  rewrite EA. split.
  - intros HB. rewrite (preprocess_nil textB HB), EA. reflexivity.
  - intros HB.
    assert (NB : is_blank (segment cut (preprocess textB)) = false).
    { destruct (is_blank (segment cut (preprocess textB))) eqn:E;
        [|reflexivity].
      apply is_blank_segment in E. contradiction. }
    rewrite !calculate_with_cases, NB. split; reflexivity.
Qed.

Lemma score_without_content_witness :
  score (fun s => match s with [] => [] | _ => [s] end)
        (text_of "?!") (text_of "...") = Ok 1%R
  /\ score (fun s => match s with [] => [] | _ => [s] end)
           (text_of "?!") (text_of "<p>essay</p>") = Ok 0%R
  /\ score (fun s => match s with [] => [] | _ => [s] end)
           (text_of "<p>essay</p>") (text_of "?!") = Ok 0%R.
Proof.
  pose proof (score_without_content
                (fun s => match s with [] => [] | _ => [s] end)
                (text_of "?!") (text_of "...") eq_refl) as H1.
  pose proof (score_without_content
                (fun s => match s with [] => [] | _ => [s] end)
                (text_of "?!") (text_of "<p>essay</p>") eq_refl) as H2.
  split.
  - apply H1; repeat constructor.
  - apply H2; [repeat constructor|discriminate].
Defined.

(** Normalising the documents beforehand changes no score: the pipeline
    gives a text and its normalised form the same result. *)
Theorem score_preprocess (cut : str -> list str) (textA textB : str) :
  score cut (preprocess textA) (preprocess textB) = score cut textA textB.
Proof.
  unfold score.
  rewrite (preprocess_fixed _ (preprocess_normalized textA)).
  rewrite (preprocess_fixed _ (preprocess_normalized textB)).
  reflexivity.
Qed.

Lemma vectorizer_terms_nil (words : list str) :
  vectorizer_terms words = [] <->
  Forall (fun w => (List.length w < 2)%nat) words.
Proof.
  unfold vectorizer_terms. induction words as [|w ws IH].
  - split; [constructor|reflexivity].
  - cbn [map filter]. unfold lower at 1. rewrite length_map.
    destruct (Nat.leb_spec 2 (List.length w)).
    + split; [discriminate|]. intros H'. apply Forall_inv in H'. lia.
    + rewrite IH. split.
      * intros H'. constructor; assumption.
      * intros H'. apply Forall_inv_tail in H'. exact H'.
Qed.

(** The failure of [calculate], exactly: it raises if and only if both
    texts are not blank and neither holds a token of two word characters
    or more, and then the error is the vectoriser's [ValueError] for an
    empty vocabulary. *)
Theorem calculate_failure (text1 text2 : str) (e : exn) :
  calculate text1 text2 = Raise e <->
  is_blank text1 = false /\ is_blank text2 = false
  /\ analyze text1 = [] /\ analyze text2 = [] /\ e = empty_vocabulary.
Proof. apply calculate_raises_iff. Qed.

(** The failure of the pipeline, exactly: with a segmenter that returns
    runs of word characters and whitespace, scoring raises if and only if
    each document keeps some word and every kept word of both has one
    character. *)
Theorem score_failure (cut : str -> list str) (textA textB : str) (e : exn) :
  Forall (fun w => word_token w \/ is_blank w = true) (cut (preprocess textA)) ->
  Forall (fun w => word_token w \/ is_blank w = true) (cut (preprocess textB)) ->
  (score cut textA textB = Raise e <->
   filtered_words cut (preprocess textA) <> []
   /\ filtered_words cut (preprocess textB) <> []
   /\ Forall (fun w => List.length w = 1%nat)
             (filtered_words cut (preprocess textA)
              ++ filtered_words cut (preprocess textB))
   /\ e = empty_vocabulary).
Proof.
  intros HA HB. unfold score. rewrite calculate_raises_iff.
  rewrite (analyze_segment_eq cut _ HA), (analyze_segment_eq cut _ HB).
  rewrite !vectorizer_terms_nil, Forall_app.
  assert (One : forall text,
             Forall (fun w => word_token w \/ is_blank w = true) (cut text) ->
             (Forall (fun w => (List.length w < 2)%nat) (filtered_words cut text)
              <-> Forall (fun w => List.length w = 1%nat)
                         (filtered_words cut text))).
  { intros text H. rewrite !Forall_forall. split; intros F w Hw.
    - specialize (F w Hw). pose proof Hw as Hin.
      unfold filtered_words in Hin. apply filter_In in Hin as [Hin _].
      rewrite Forall_forall in H.
      pose proof (filtered_words_not_blank cut text) as NB.
      rewrite Forall_forall in NB. specialize (NB w Hw).
      destruct (H w Hin) as [[Hn _]|Hb]; [|congruence].
      destruct w; [congruence|simpl in *; lia].
    - rewrite (F w Hw). lia. }
  rewrite (One _ HA), (One _ HB).
  assert (NA : is_blank (segment cut (preprocess textA)) = false
               <-> filtered_words cut (preprocess textA) <> []).
  { rewrite <- is_blank_segment.
    destruct (is_blank (segment cut (preprocess textA))); split; congruence. }
  assert (NB : is_blank (segment cut (preprocess textB)) = false
               <-> filtered_words cut (preprocess textB) <> []).
  { rewrite <- is_blank_segment.
    destruct (is_blank (segment cut (preprocess textB))); split; congruence. }
  rewrite NA, NB. tauto.
Qed.

Lemma score_failure_witness :
  score (fun s => match s with [] => [] | _ => [s] end)
        (text_of "a") (text_of "b") = Raise empty_vocabulary.
Proof.
  apply (score_failure (fun s => match s with [] => [] | _ => [s] end)
                       (text_of "a") (text_of "b") empty_vocabulary).
  - repeat constructor; discriminate.
  - repeat constructor; discriminate.
  - split; [discriminate|]. split; [discriminate|].
    split; [repeat constructor|reflexivity].
Defined.

(** * Further properties of the file handler *)

Section Reading.

Variable decode : string -> FileHandler.bytes -> result str.

Lemma try_encodings_ok (encs : list string) (data : FileHandler.bytes)
      (text : str) :
  FileHandler.try_encodings decode encs data = Ok text <->
  exists tried encoding rest,
    encs = tried ++ encoding :: rest
    /\ Forall (fun enc => decode enc data = Raise UnicodeDecodeError) tried
    /\ decode encoding data = Ok text.
Proof.
  induction encs as [|enc encs IH]; simpl.
  - split; [discriminate|].
    intros (tried & encoding & rest & E & _). destruct tried; discriminate.
  - split.
    + destruct (decode enc data) as [t|e] eqn:D.
      * intros [= <-]. exists [], enc, encs. repeat split; auto.
      * destruct e; try discriminate.
        intros H. apply IH in H as (tried & encoding & rest & -> & F & O).
        exists (enc :: tried), encoding, rest. repeat split; auto.
    + intros (tried & encoding & rest & E & F & O).
      destruct tried as [|t tried]; simpl in E; injection E as -> ->.
      * rewrite O. reflexivity.
      * pose proof (Forall_inv F) as D. apply Forall_inv_tail in F.
        rewrite D. apply IH. exists tried, encoding, rest. auto.
Qed.

Lemma try_encodings_raise (encs : list string) (data : FileHandler.bytes)
      (e : exn) :
  FileHandler.try_encodings decode encs data = Raise e ->
  e <> UnicodeDecodeError.
Proof.
  induction encs as [|enc encs IH]; simpl.
  - intros [= <-]. discriminate.
  - destruct (decode enc data) as [t|e'] eqn:D; [discriminate|].
    destruct e'; try (intros [= <-]; discriminate). exact IH.
Qed.

Lemma try_encodings_exhausted (encs : list string) (data : FileHandler.bytes) :
  Forall (fun enc => decode enc data = Raise UnicodeDecodeError) encs ->
  FileHandler.try_encodings decode encs data = Raise TypeError.
Proof.
  induction 1 as [|enc encs D _ IH]; simpl; [reflexivity|].
  rewrite D. exact IH.
Qed.

End Reading.

(** [read_file] returns a text exactly when the file exists and one of
    utf-8, gbk, gb2312, ansi decodes it after every encoding tried before
    it raised [UnicodeDecodeError]; the text is what that first encoding
    gives, later encodings are not consulted. *)
Theorem read_file_ok (decode : string -> FileHandler.bytes -> result str)
        (fs : FileHandler.files) (file_path text : str) :
  FileHandler.read_file decode fs file_path = Ok text <->
  exists data tried encoding rest,
    fs file_path = Some data
    /\ FileHandler.encodings = tried ++ encoding :: rest
    /\ Forall (fun enc => decode enc data = Raise UnicodeDecodeError) tried
    /\ decode encoding data = Ok text.
Proof.
  unfold FileHandler.read_file. destruct (fs file_path) as [data|].
  - rewrite try_encodings_ok. split.
    + intros (tried & encoding & rest & H). exists data, tried, encoding, rest.
      tauto.
    + intros (data' & tried & encoding & rest & [= <-] & H).
      exists tried, encoding, rest. exact H.
  - split; [discriminate|]. intros (data & _ & _ & _ & H & _). discriminate.
Qed.

(** [read_file] never raises [UnicodeDecodeError]: a decoding error of one
    encoding moves on to the next, and after the last one the ill-formed
    [raise UnicodeDecodeError(msg)] is a [TypeError]. *)
Theorem read_file_never_decode_error
        (decode : string -> FileHandler.bytes -> result str)
        (fs : FileHandler.files) (file_path : str) (e : exn) :
  FileHandler.read_file decode fs file_path = Raise e ->
  e <> UnicodeDecodeError.
Proof.
  unfold FileHandler.read_file. destruct (fs file_path) as [data|].
  - apply try_encodings_raise.
  - intros [= <-]. discriminate.
Qed.

Lemma read_file_never_decode_error_witness :
  let decode := fun (enc : string) (_ : FileHandler.bytes) =>
                  if String.eqb enc "ansi" then @Raise str LookupError
                  else Raise UnicodeDecodeError in
  FileHandler.read_file decode (fun _ => Some []) (text_of "orig.txt")
  = Raise LookupError
  /\ LookupError <> UnicodeDecodeError.
Proof.
  cbv zeta. split; [reflexivity|].
  apply (read_file_never_decode_error
           (fun enc _ => if String.eqb enc "ansi" then Raise LookupError
                         else Raise UnicodeDecodeError)
           (fun _ => Some []) (text_of "orig.txt") LookupError).
  reflexivity.
Defined.

(** A file that none of the four encodings decodes makes [read_file] raise
    [TypeError]. *)
Theorem read_file_undecodable
        (decode : string -> FileHandler.bytes -> result str)
        (fs : FileHandler.files) (file_path : str) (data : FileHandler.bytes) :
  fs file_path = Some data ->
  Forall (fun enc => decode enc data = Raise UnicodeDecodeError)
         FileHandler.encodings ->
  FileHandler.read_file decode fs file_path = Raise TypeError.
Proof.
  intros E H. unfold FileHandler.read_file. rewrite E.
  apply try_encodings_exhausted, H.
Qed.

Lemma read_file_undecodable_witness :
  FileHandler.read_file (fun _ _ => Raise UnicodeDecodeError)
                        (fun _ => Some []) (text_of "orig.txt")
  = Raise TypeError.
Proof.
  apply (read_file_undecodable (fun _ _ => Raise UnicodeDecodeError)
                               (fun _ => Some []) (text_of "orig.txt") []).
  - reflexivity.
  - repeat constructor.
Defined.


